(** * Mortgage refinance tipping-point calculator

    A shallow embedding of [mortgageRefinanceTippingPointCalcutaor.py] and the
    properties of its amortization engine, sale-horizon resolution, rate
    search, comparison table and LOSS/GAIN labels.

    Number model.  Python [int] values are [Z].  The program's floats are
    IEEE 754 binary64.  The formulas of the amortization engine, the search
    loop, the table and the labels are embedded over exact rationals [Q]:
    every operation is the exact one, two numbers are the same when they are
    [Qeq], and a division whose divisor is zero raises [ZeroDivisionError],
    as in Python.  What is proved of them is proved of the formulas the code
    evaluates, before rounding.  Where rounding decides what the program
    does (which candidates [np.arange] yields, whether the divisor of
    [calculate_pmt] is zero) the code is embedded on binary64 itself, in the
    section Binary64 below, with the primitive floats, whose operations are
    those of binary64 with rounding to nearest, ties to even.

    Effects.  Exceptions are values of [exn]; a computation that can raise is
    a [result], threaded with the bind notation below.  [sys.exit(1)] is the
    exception [SystemExit 1].  Printing is not modelled; [run_analysis]
    returns the values it prints. *)

From Stdlib Require Import ZArith QArith Qround Qabs Qpower.
From Stdlib Require Import List Bool String Ascii DecimalString.
From Stdlib Require Import Sorted SetoidList Permutation.
From Stdlib Require Import Floats.
From Stdlib Require Import Lia Lqa Psatz.
Import ListNotations.

Local Open Scope Z_scope.
Local Open Scope Q_scope.

(** ** Exceptions and the [result] monad *)

Inductive exn : Type :=
| ZeroDivisionError
| ValueError_sale_before_current (sale_label : string) (total_months : Z)
| ValueError_out_of_range
| ValueError_arange_length  (* np.arange: cannot compute length *)
| OverflowError
| SystemExit (code : Z).

Inductive result (A : Type) : Type :=
| Ok (a : A)
| Raise (e : exn).

Arguments Ok {A} a.
Arguments Raise {A} e.

Definition bind {A B : Type} (m : result A) (k : A -> result B) : result B :=
  match m with
  | Ok a => k a
  | Raise e => Raise e
  end.

Notation "x <- m ;; k" := (bind m (fun x => k))
  (at level 61, m at next level, right associativity).
Notation "' pat <- m ;; k" := (bind m (fun x => match x with pat => k end))
  (at level 61, pat pattern, m at next level, right associativity).

(** [for x in xs: st = body(st, x)], where the body may raise. *)
Fixpoint for_each {A S : Type} (xs : list A) (body : S -> A -> result S)
    (st : S) : result S :=
  match xs with
  | [] => Ok st
  | x :: xs' => st' <- body st x ;; for_each xs' body st'
  end.

(** Python's [range(a, b)]. *)
Definition range (a b : Z) : list Z :=
  map (fun i => (a + Z.of_nat i)%Z) (seq 0 (Z.to_nat (b - a))).

(** Float true division [a / b]. *)
Definition truediv (a b : Q) : result Q :=
  if Qeq_bool b 0 then Raise ZeroDivisionError else Ok (a / b).

Definition Qlt_bool (a b : Q) : bool := negb (Qle_bool b a).

(** ** Utility functions *)

(** [calculate_pmt(principal, annual_rate, months)]: the fixed monthly
    principal-and-interest payment, in exact arithmetic.
    [calculate_pmt_b64] below is the binary64 one. *)
Definition calculate_pmt (principal annual_rate : Q) (months : Z) : result Q :=
  if Qle_bool annual_rate 0 then
    truediv principal (inject_Z months)
  else
    let r := annual_rate / 100 / 12 in
    truediv (principal * (r * (1 + r) ^ months)) ((1 + r) ^ months - 1).

(** [get_loan_status(principal, annual_rate, total_months, payments_made)]:
    remaining balance, payment and remaining interest after
    [payments_made] payments. *)
Definition get_loan_status (principal annual_rate : Q)
    (total_months payments_made : Z) : result (Q * Q * Q) :=
  let balance := principal in
  let r := annual_rate / 100 / 12 in
  pmt <- calculate_pmt principal annual_rate total_months ;;
  let balance :=
    fold_left
      (fun balance _ =>
         let interest := balance * r in
         let principal_pay := pmt - interest in
         balance - principal_pay)
      (range 1 (payments_made + 1)) balance in
  let remaining_interest :=
    pmt * inject_Z (total_months - payments_made) - balance in
  Ok (balance, pmt, remaining_interest).

(** ** Calendar: [datetime] and [dateutil.relativedelta] *)

Module Calendar.

Local Open Scope Z_scope.

Record datetime : Type := mk_datetime { year : Z; month : Z; day : Z }.

Definition MINYEAR : Z := 1.
Definition MAXYEAR : Z := 9999.

Definition isleap (y : Z) : bool :=
  (y mod 4 =? 0) && (negb (y mod 100 =? 0) || (y mod 400 =? 0)).

(** [calendar.monthrange(y, m)[1]] for a month in 1..12. *)
Definition days_in_month (y m : Z) : Z :=
  if m =? 2 then (if isleap y then 29 else 28)
  else if (m =? 4) || (m =? 6) || (m =? 9) || (m =? 11) then 30
  else 31.

(** The C [int] range in which CPython's [datetime] parses its arguments. *)
Definition fits_c_int (z : Z) : bool := (- 2 ^ 31 <=? z) && (z <=? 2 ^ 31 - 1).

(** Range check shared by the constructor [datetime(y, m, d)] and by
    [dt.replace(year=y, month=m, day=d)]. *)
Definition check_date (y m d : Z) : result datetime :=
  if negb (fits_c_int y && fits_c_int m && fits_c_int d) then
    Raise OverflowError
  else if negb ((MINYEAR <=? y) && (y <=? MAXYEAR)) then
    Raise ValueError_out_of_range
  else if negb ((1 <=? m) && (m <=? 12)) then
    Raise ValueError_out_of_range
  else if negb ((1 <=? d) && (d <=? days_in_month y m)) then
    Raise ValueError_out_of_range
  else Ok (mk_datetime y m d).

Definition datetime_new (y m d : Z) : result datetime := check_date y m d.

(** [relativedelta(months=n)]: the constructor keeps [|months| <= 11] and
    carries the rest into [years], both with the sign of [n]. *)
Record relativedelta : Type := mk_relativedelta { years : Z; months : Z }.

Definition relativedelta_months (n : Z) : relativedelta :=
  if 11 <? Z.abs n then
    let s := Z.sgn n in
    let '(div, mod_) := Z.div_eucl (n * s) 12 in
    mk_relativedelta (div * s) (mod_ * s)
  else mk_relativedelta 0 n.

Definition relativedelta_neg (rd : relativedelta) : relativedelta :=
  mk_relativedelta (- years rd) (- months rd).

(** [dt + rd] as [relativedelta.__add__] computes it. *)
Definition datetime_add (dt : datetime) (rd : relativedelta) : result datetime :=
  let y := year dt + years rd in
  let m := month dt in
  let '(y, m) :=
    if negb (months rd =? 0) then
      let m := m + months rd in
      if 12 <? m then (y + 1, m - 12)
      else if m <? 1 then (y - 1, m + 12)
      else (y, m)
    else (y, m) in
  let d := Z.min (days_in_month y m) (day dt) in
  check_date y m d.

(** [dt - rd] is [(-rd) + dt]. *)
Definition datetime_sub (dt : datetime) (rd : relativedelta) : result datetime :=
  datetime_add dt (relativedelta_neg rd).

Definition month_abbr (m : Z) : string :=
  match m with
  | 1 => "Jan" | 2 => "Feb" | 3 => "Mar" | 4 => "Apr"
  | 5 => "May" | 6 => "Jun" | 7 => "Jul" | 8 => "Aug"
  | 9 => "Sep" | 10 => "Oct" | 11 => "Nov" | 12 => "Dec"
  | _ => ""
  end%string.

(** [dt.strftime('%b %Y')] in the C locale; the year is written in decimal,
    which is the four-digit form for years from 1000 on. *)
Definition strftime_b_Y (dt : datetime) : string :=
  (month_abbr (month dt) ++ " " ++ NilEmpty.string_of_int (Z.to_int (year dt)))%string.

End Calendar.

Import Calendar.

Local Open Scope Q_scope.

(** [calculate_total_payments_until_sale(payments_made, sell_year, sell_month)]:
    the number of payments from the first one through the sale month, and
    the label of the first payment's month. *)
Definition CURRENT_YEAR : Z := 2025.
Definition CURRENT_MONTH : Z := 11.

Definition calculate_total_payments_until_sale
    (payments_made sell_year sell_month : Z) : result (Z * string) :=
  current <- datetime_new CURRENT_YEAR CURRENT_MONTH 1 ;;
  first_payment_date <-
    datetime_sub current (relativedelta_months (payments_made - 1)) ;;
  sale_date <- datetime_new sell_year sell_month 1 ;;
  let total_months :=
    (12 * (year sale_date - year first_payment_date)
     + (month sale_date - month first_payment_date) + 1)%Z in
  if (total_months <? payments_made)%Z then
    Raise (ValueError_sale_before_current (strftime_b_Y sale_date) total_months)
  else Ok (total_months, strftime_b_Y first_payment_date).

(** ** NumPy and built-ins used by the analysis *)

(** [np.arange(start, stop, step)] in exact arithmetic:
    [ceil((stop - start) / step)] values [start + i * step], none when that
    count is not positive.  [np_arange] below is the binary64 one. *)
Definition arange (start stop step : Q) : list Q :=
  map (fun i => start + inject_Z (Z.of_nat i) * step)
      (seq 0 (Z.to_nat (Qceiling ((stop - start) / step)))).

(** Nearest integer, ties to the even one. *)
Definition rint (x : Q) : Z :=
  let f := Qfloor x in
  match Qcompare (x - inject_Z f) (1 # 2) with
  | Lt => f
  | Gt => (f + 1)%Z
  | Eq => if Z.even f then f else (f + 1)%Z
  end.

(** [round(x, 3)]; the result is returned in lowest terms. *)
Definition round3 (x : Q) : Q := Qred (rint (x * 1000) # 1000).

(** [list(set(xs))]: one representative of every value of [xs]. *)
Fixpoint list_set (xs : list Q) : list Q :=
  match xs with
  | [] => []
  | x :: xs' =>
      if existsb (Qeq_bool x) xs' then list_set xs' else x :: list_set xs'
  end.

(** [sorted(xs)] and [sorted(xs, reverse=True)], by insertion. *)
Fixpoint insert_by (le : Q -> Q -> bool) (x : Q) (xs : list Q) : list Q :=
  match xs with
  | [] => [x]
  | y :: ys => if le x y then x :: y :: ys else y :: insert_by le x ys
  end.

Definition sorted_by (le : Q -> Q -> bool) (xs : list Q) : list Q :=
  fold_right (insert_by le) [] xs.

Definition sorted (xs : list Q) : list Q := sorted_by Qle_bool xs.
Definition sorted_reverse (xs : list Q) : list Q :=
  sorted_by (fun a b => Qle_bool b a) xs.

(** ** The analysis *)

(** The parsed command line. *)
Record Args : Type := mk_Args {
  amount : Q;
  rate : Q;
  term : Z;
  paid : Z;
  sell_year : Z;
  sell_month : Z;
  costs_pct : Q
}.

(** The locals of [run_analysis] that are fixed before the search starts
    (its sections 1 and 2). *)
Record Locals : Type := mk_Locals {
  original_rate : Q;
  original_term_months : Z;
  payments_made : Z;
  months_until_sale : Z;
  first_pmt_date_str : string;
  remaining_principal : Q;
  pmt_orig : Q;
  closing_costs : Q;
  cost_refi_loan_amt : Q;
  refi_payments_until_sale : Z;
  total_cost_orig_at_sale : Q
}.

Record Row : Type := mk_Row {
  row_rate : Q;
  monthly_savings : Q;
  savings_at_sale : Q;
  savings_lifetime : Q
}.

(** What [run_analysis] prints: the inputs it echoes, the two tipping rates
    and the rows of the comparison table. *)
Record Report : Type := mk_Report {
  locals : Locals;
  tipping_rate_sale : Q;
  tipping_rate_lifetime : Q;
  table_data : list Row
}.

(** The sale period and sections 1 and 2: original loan status and original
    loan cost at sale. *)
Definition original_loan (args : Args) : result Locals :=
  let original_loan_amount := amount args in
  let original_rate := rate args in
  let original_term_months := term args in
  let payments_made := paid args in
  let closing_cost_pct := costs_pct args in
  '(months_until_sale, first_pmt_date_str) <-
    match calculate_total_payments_until_sale
            payments_made (sell_year args) (sell_month args) with
    | Raise (ValueError_sale_before_current _ _) => Raise (SystemExit 1)
    | Raise ValueError_out_of_range => Raise (SystemExit 1)
    | other => other
    end ;;
  '(remaining_principal, pmt_orig, remaining_interest_orig) <-
    get_loan_status original_loan_amount original_rate original_term_months
      payments_made ;;
  let closing_costs := remaining_principal * closing_cost_pct in
  let cost_refi_loan_amt := remaining_principal + closing_costs in
  let refi_payments_until_sale := (months_until_sale - payments_made)%Z in
  '(rem_principal_orig_sale, _, _) <-
    get_loan_status original_loan_amount original_rate original_term_months
      months_until_sale ;;
  let total_payments_orig_at_sale := pmt_orig * inject_Z months_until_sale in
  let total_cost_orig_at_sale :=
    total_payments_orig_at_sale + rem_principal_orig_sale in
  Ok (mk_Locals original_rate original_term_months payments_made
        months_until_sale first_pmt_date_str remaining_principal pmt_orig
        closing_costs cost_refi_loan_amt refi_payments_until_sale
        total_cost_orig_at_sale).

Section Analysis.

Variable L : Locals.

(** The candidates in exact arithmetic; [find_tipping_points_b64] below
    scans the candidates NumPy computes in binary64. *)
Definition search_rates : list Q := arange (original_rate L) 2.99 (-0.001).

Definition is_None {A : Type} (o : option A) : bool :=
  match o with None => true | Some _ => false end.

(** One iteration of the search loop, on the pair
    [(tipping_rate_sale, tipping_rate_lifetime)]. *)
Definition search_body (st : option Q * option Q) (r_new : Q)
    : result (option Q * option Q) :=
  let '(tipping_rate_sale, tipping_rate_lifetime) := st in
  pmt_refi <- calculate_pmt (cost_refi_loan_amt L) r_new 360 ;;
  (* A. lifetime tipping point check *)
  let total_payments_orig_remaining :=
    pmt_orig L * inject_Z (original_term_months L - payments_made L) in
  let total_payments_refi_lifetime := pmt_refi * 360 in
  let tipping_rate_lifetime :=
    if Qlt_bool total_payments_refi_lifetime total_payments_orig_remaining
       && is_None tipping_rate_lifetime
    then Some r_new else tipping_rate_lifetime in
  (* B. time-to-sell tipping point check *)
  '(rem_principal_refi_sale, _, _) <-
    get_loan_status (cost_refi_loan_amt L) r_new 360
      (refi_payments_until_sale L) ;;
  let total_payments_refi_at_sale :=
    pmt_orig L * inject_Z (payments_made L)
    + pmt_refi * inject_Z (refi_payments_until_sale L) in
  let total_cost_refi_at_sale :=
    total_payments_refi_at_sale + rem_principal_refi_sale in
  let tipping_rate_sale :=
    if Qlt_bool total_cost_refi_at_sale (total_cost_orig_at_sale L)
       && is_None tipping_rate_sale
    then Some r_new else tipping_rate_sale in
  Ok (tipping_rate_sale, tipping_rate_lifetime).

(** Section 3: the search and its fallback; returns
    [(tipping_rate_sale, tipping_rate_lifetime)]. *)
Definition find_tipping_points : result (Q * Q) :=
  '(tipping_rate_sale, tipping_rate_lifetime) <-
    for_each search_rates search_body (None, None) ;;
  let tipping_rate_sale :=
    match tipping_rate_sale with None => original_rate L | Some r => r end in
  let tipping_rate_lifetime :=
    match tipping_rate_lifetime with None => original_rate L | Some r => r end in
  Ok (tipping_rate_sale, tipping_rate_lifetime).

(** Section 4: the rates of the comparison table. *)
Definition table_candidates (tipping_rate_sale tipping_rate_lifetime : Q)
    : list Q :=
  [ round3 (tipping_rate_sale + 0.075);
    round3 tipping_rate_sale;
    round3 (tipping_rate_sale - 0.25);
    round3 tipping_rate_lifetime;
    round3 (tipping_rate_lifetime - 0.25) ].

Definition table_rates (tipping_rate_sale tipping_rate_lifetime : Q) : list Q :=
  let table_rates :=
    sorted (list_set (table_candidates tipping_rate_sale tipping_rate_lifetime)) in
  let table_rates :=
    filter (fun r => Qlt_bool r (original_rate L)) table_rates in
  sorted_reverse (list_set table_rates).

(** One row of the comparison table. *)
Definition table_row (r_new : Q) : result Row :=
  pmt_refi <- calculate_pmt (cost_refi_loan_amt L) r_new 360 ;;
  let monthly_savings := pmt_orig L - pmt_refi in
  '(rem_principal_refi_sale, _, _) <-
    get_loan_status (cost_refi_loan_amt L) r_new 360
      (refi_payments_until_sale L) ;;
  let total_payments_refi_at_sale :=
    pmt_orig L * inject_Z (payments_made L)
    + pmt_refi * inject_Z (refi_payments_until_sale L) in
  let savings_at_sale :=
    total_cost_orig_at_sale L
    - (total_payments_refi_at_sale + rem_principal_refi_sale) in
  let total_payments_orig_remaining :=
    pmt_orig L * inject_Z (original_term_months L - payments_made L) in
  let total_payments_refi_lifetime := pmt_refi * 360 in
  let savings_lifetime :=
    total_payments_orig_remaining - total_payments_refi_lifetime in
  Ok (mk_Row r_new monthly_savings savings_at_sale savings_lifetime).

Definition build_table (rates : list Q) : result (list Row) :=
  for_each rates
    (fun table_data r_new => row <- table_row r_new ;; Ok (table_data ++ [row]))
    [].

End Analysis.

(** The LOSS/GAIN suffix printed after a savings amount. *)
Definition status (savings : Q) : string :=
  if Qlt_bool savings 0.01 && Qlt_bool 0.01 (Qabs savings)
  then " (LOSS)" else " (GAIN)".

(** [run_analysis(args)]. *)
Definition run_analysis (args : Args) : result Report :=
  L <- original_loan args ;;
  '(tipping_rate_sale, tipping_rate_lifetime) <- find_tipping_points L ;;
  table_data <-
    build_table L (table_rates L tipping_rate_sale tipping_rate_lifetime) ;;
  Ok (mk_Report L tipping_rate_sale tipping_rate_lifetime table_data).

(** * Binary64 *)

(** The program's numbers are Python floats and NumPy [float64]s: IEEE 754
    binary64, every operation rounded to the nearest representable value,
    ties to even.  Where that rounding decides what the program does, the
    code is embedded on binary64 itself: the candidates of [np.arange], and
    [calculate_pmt] as Python evaluates it, with the part of [**] that CPython
    leaves to the C library's [pow] as a parameter. *)

Set Warnings "-inexact-float".
Local Open Scope float_scope.

(** The exact value of a finite double ([0] for an infinity or a NaN). *)
Definition b64_to_Q (x : float) : Q :=
  match Prim2SF x with
  | S754_finite s m e =>
      let z := if s then Z.neg m else Z.pos m in
      if (0 <=? e)%Z then inject_Z (z * 2 ^ e)
      else Qmake z (Z.to_pos (2 ^ (- e)))
  | _ => 0%Q
  end.

(** The double nearest to an integer, ties to even (an infinity past the
    largest double): how C and Python convert an integer to a double. *)
Definition b64_of_Z (z : Z) : float :=
  SF2Prim (binary_normalize prec emax z 0 false).

(** NumPy's [_arange_safe_ceil_to_intp]: the ceiling as an index, a
    [ValueError] for a NaN and an [OverflowError] beyond the index range
    (at exactly [2 ^ 63] the C cast is undefined; it is an overflow here). *)
Definition arange_safe_ceil_to_intp (x : float) : result Z :=
  match Prim2SF x with
  | S754_nan => Raise ValueError_arange_length
  | S754_infinity _ => Raise OverflowError
  | _ =>
      let c := Qceiling (b64_to_Q x) in
      if ((- 2 ^ 63 <=? c) && (c <? 2 ^ 63))%Z then Ok c
      else Raise OverflowError
  end.

(** [np.arange(start, stop, step)] on doubles, as NumPy fills it: the length
    is the ceiling of [(stop - start) / step]; the first value is [start],
    the second [start + step], and from the third on the value at index [i]
    is [start + i * delta] with [delta = (start + step) - start].  A length
    beyond the memory available is a [MemoryError] in NumPy, which has no
    counterpart here. *)
Definition np_arange_item (start next : float) (i : nat) : float :=
  match i with
  | O => start
  | S O => next
  | _ => start + b64_of_Z (Z.of_nat i) * (next - start)
  end.

Definition np_arange (start stop step : float) : result (list float) :=
  if step =? 0 then Raise ZeroDivisionError
  else
    len <- arange_safe_ceil_to_intp ((stop - start) / step) ;;
    if (len <=? 0)%Z then Ok []
    else
      let next := start + step in
      Ok (map (np_arange_item start next) (seq 0 (Z.to_nat len))).

(** [float(z)] for a Python int: [OverflowError] when it is too large. *)
Definition float_of_int (z : Z) : result float :=
  let x := b64_of_Z z in
  if is_infinity x then Raise OverflowError else Ok x.

(** Float true division [a / b]. *)
Definition float_truediv (a b : float) : result float :=
  if b =? 0 then Raise ZeroDivisionError else Ok (a / b).

Section Payment.

(** What CPython's [float_pow] returns or raises for a base other than
    [1.0] and an exponent other than zero: its special cases for NaN,
    infinite, zero and negative bases, and otherwise the C library's [pow],
    with [OverflowError] when the result overflows. *)
Variable py_pow : float -> float -> result float.

(** [x ** n] for a float [x] and an int [n]: the exponent is converted to a
    float; an exponent of zero and a base of [1.0] both give [1.0] without
    a call of [pow]. *)
Definition float_pow (x : float) (n : Z) : result float :=
  iw <- float_of_int n ;;
  if iw =? 0 then Ok 1
  else if x =? 1 then Ok 1
  else py_pow x iw.

(** [calculate_pmt(principal, annual_rate, months)] on Python floats and a
    Python int. *)
Definition calculate_pmt_b64 (principal annual_rate : float) (months : Z)
    : result float :=
  if annual_rate <=? 0 then
    divisor <- float_of_int months ;;
    float_truediv principal divisor
  else
    let r := annual_rate / 100 / 12 in
    pow1 <- float_pow (1 + r) months ;;
    pow2 <- float_pow (1 + r) months ;;
    float_truediv (principal * (r * pow1)) (pow2 - 1).

End Payment.

(** Section 3 with the candidates as NumPy computes them: the search over
    [np.arange(original_rate, 2.99, -0.001)] on doubles, each candidate
    entering the loop body with its exact value. *)
Definition find_tipping_points_b64 (L : Locals) (original_rate : float)
    : result (Q * Q) :=
  search_rates <- np_arange original_rate 2.99 (-0.001) ;;
  '(tipping_rate_sale, tipping_rate_lifetime) <-
    for_each (map b64_to_Q search_rates) (search_body L) (None, None) ;;
  let tipping_rate_sale :=
    match tipping_rate_sale with
    | None => b64_to_Q original_rate
    | Some r => r
    end in
  let tipping_rate_lifetime :=
    match tipping_rate_lifetime with
    | None => b64_to_Q original_rate
    | Some r => r
    end in
  Ok (tipping_rate_sale, tipping_rate_lifetime).

Local Close Scope float_scope.

(** ** Quantities the properties are stated with *)

(** [geom x n = 1 + x + ... + x^(n-1)]: the payment is
    [principal * x^n / geom x n] with [x = 1 + r]. *)
Fixpoint geom (x : Q) (n : nat) : Q :=
  match n with
  | O => 0
  | S n' => 1 + x * geom x n'
  end.

(** The balance left after [n] payments of [pmt]: the loop of
    [get_loan_status]. *)
Definition balance_after (principal annual_rate pmt : Q) (n : Z) : Q :=
  fold_left
    (fun balance (_ : Z) =>
       balance - (pmt - balance * (annual_rate / 100 / 12)))
    (range 1 (n + 1)) principal.

Section HorizonSpec.

Local Open Scope Z_scope.

(** Months are counted from year 0: [month_index] of January of year [y] is
    [12 * y + 1]. *)
Definition month_index (y m : Z) : Z := 12 * y + m.

(** The month reached by stepping back [payments_made - 1] months from the
    current reference month. *)
Definition first_payment_index (payments_made : Z) : Z :=
  month_index CURRENT_YEAR CURRENT_MONTH - (payments_made - 1).

Definition first_payment_month (payments_made : Z) : datetime :=
  let i := first_payment_index payments_made - 1 in
  mk_datetime (i / 12) (i mod 12 + 1) 1.

(** The number of months from the first payment through the sale month,
    both included. *)
Definition inclusive_month_count (payments_made sell_year sell_month : Z) : Z :=
  month_index sell_year sell_month - first_payment_index payments_made + 1.

End HorizonSpec.

Section Predicates.

Variable L : Locals.

(** The lifetime predicate at a candidate rate: the refinance payments over
    360 months total less than the payments left on the original loan. *)
Definition lifetime_cheaper (r_new : Q) : bool :=
  match calculate_pmt (cost_refi_loan_amt L) r_new 360 with
  | Ok pmt_refi =>
      Qlt_bool (pmt_refi * 360)
        (pmt_orig L * inject_Z (original_term_months L - payments_made L))
  | Raise _ => false
  end.

(** The sale predicate at a candidate rate: payments already made, plus the
    refinance payments until the sale, plus the refinance balance at the
    sale, total less than the original loan's cost through the sale. *)
Definition sale_cheaper (r_new : Q) : bool :=
  match calculate_pmt (cost_refi_loan_amt L) r_new 360,
        get_loan_status (cost_refi_loan_amt L) r_new 360
          (refi_payments_until_sale L) with
  | Ok pmt_refi, Ok (rem_principal_refi_sale, _, _) =>
      Qlt_bool
        (pmt_orig L * inject_Z (payments_made L)
         + pmt_refi * inject_Z (refi_payments_until_sale L)
         + rem_principal_refi_sale)
        (total_cost_orig_at_sale L)
  | _, _ => false
  end.

End Predicates.

(** [t] is the first element of [rates] that satisfies [p], or [default]
    when no element does. *)
Definition first_qualifying (p : Q -> bool) (rates : list Q) (default t : Q)
    : Prop :=
  (Forall (fun r => p r = false) rates /\ t = default)
  \/ (exists before after,
        rates = before ++ t :: after
        /\ Forall (fun r => p r = false) before
        /\ p t = true).

(** The state of one latch after scanning [rates]: what it held before, or
    else the first element that satisfies [p]. *)
Definition keep_first (o : option Q) (p : Q -> bool) (rates : list Q)
    : option Q :=
  match o with Some _ => o | None => find p rates end.

(** The rate a latch ends with: the first candidate that satisfies [p], or
    the original rate when none does. *)
Definition first_or_original (L : Locals) (p : Q -> bool) : Q :=
  match find p (search_rates L) with
  | None => original_rate L
  | Some r => r
  end.

(** A tipping rate is a candidate that satisfies [p], or the original rate;
    it is the original rate exactly when no candidate satisfies [p] or the
    original rate itself does. *)
Definition candidate_or_original (p : Q -> bool) (rates : list Q)
    (original t : Q) : Prop :=
  ((In t rates /\ p t = true) \/ t = original)
  /\ (t = original
      <-> Forall (fun r => p r = false) rates \/ p original = true).

(** Whether each element is strictly below the one before it. *)
Fixpoint descending_b (l : list Q) : bool :=
  match l with
  | x :: (y :: _) as rest => Qlt_bool y x && descending_b rest
  | _ => true
  end.

(** A 40-year loan at 3%, nothing paid yet, sold in
    the month of the first payment, no closing costs. *)
Definition long_term_args : Args := mk_Args 1000 3 480 0 2025 12 0.

(** * Properties *)

(** ** Comparisons and division *)

Lemma Qlt_bool_iff (a b : Q) : Qlt_bool a b = true <-> a < b.
Proof.
  unfold Qlt_bool. rewrite negb_true_iff.
  destruct (Qle_bool b a) eqn:E.
  - apply Qle_bool_iff in E. split; [discriminate | intros H; exfalso; lra].
  - split; [intros _ | reflexivity].
    apply Qnot_le_lt. intros H. apply Qle_bool_iff in H. congruence.
Qed.

Lemma Qle_bool_false (a b : Q) : Qle_bool a b = false <-> b < a.
Proof.
  rewrite <- Qlt_bool_iff. unfold Qlt_bool.
  destruct (Qle_bool a b); simpl; intuition congruence.
Qed.

Lemma inject_Z_nonzero (m : Z) : m <> 0%Z -> ~ inject_Z m == 0.
Proof. intros Hm H. apply Hm. unfold Qeq in H. simpl in H. lia. Qed.

Lemma truediv_ok (a b : Q) : ~ b == 0 -> truediv a b = Ok (a / b).
Proof.
  intros H. unfold truediv.
  destruct (Qeq_bool b 0) eqn:E; [apply Qeq_bool_iff in E; contradiction | reflexivity].
Qed.

Lemma truediv_zero (a b : Q) : b == 0 -> truediv a b = Raise ZeroDivisionError.
Proof.
  intros H. unfold truediv. apply Qeq_bool_iff in H. now rewrite H.
Qed.

(** ** The payment formula *)

Lemma monthly_rate_eq (annual_rate : Q) :
  annual_rate / 100 / 12 == annual_rate * (1 # 1200).
Proof. field. Qed.

Lemma monthly_rate_pos (annual_rate : Q) :
  0 < annual_rate -> 0 < annual_rate / 100 / 12.
Proof. intros H. rewrite monthly_rate_eq. lra. Qed.

Lemma calculate_pmt_nonpos (principal annual_rate : Q) (months : Z) :
  annual_rate <= 0 -> months <> 0%Z ->
  calculate_pmt principal annual_rate months = Ok (principal / inject_Z months).
Proof.
  intros Hr Hm. unfold calculate_pmt.
  apply Qle_bool_iff in Hr. rewrite Hr.
  apply truediv_ok. now apply inject_Z_nonzero.
Qed.

Lemma divisor_pos (annual_rate : Q) (months : Z) :
  0 < annual_rate -> (1 <= months)%Z ->
  0 < (1 + annual_rate / 100 / 12) ^ months - 1.
Proof.
  intros Hr Hm.
  assert (1 < (1 + annual_rate / 100 / 12) ^ months).
  { apply Qpower_1_lt; [| lia]. pose proof (monthly_rate_pos _ Hr). lra. }
  lra.
Qed.

Lemma calculate_pmt_pos (principal annual_rate : Q) (months : Z) :
  0 < annual_rate -> (1 <= months)%Z ->
  calculate_pmt principal annual_rate months =
  Ok (principal
      * (annual_rate / 100 / 12 * (1 + annual_rate / 100 / 12) ^ months)
      / ((1 + annual_rate / 100 / 12) ^ months - 1)).
Proof.
  intros Hr Hm. unfold calculate_pmt.
  apply Qle_bool_false in Hr. rewrite Hr.
  apply truediv_ok.
  apply Qle_bool_false in Hr.
  pose proof (divisor_pos annual_rate months Hr Hm). lra.
Qed.

Lemma calculate_pmt_returns (principal annual_rate : Q) (months : Z) :
  (1 <= months)%Z ->
  exists pmt, calculate_pmt principal annual_rate months = Ok pmt.
Proof.
  intros Hm. destruct (Qlt_le_dec 0 annual_rate) as [Hr | Hr].
  - eexists. now apply calculate_pmt_pos.
  - eexists. apply calculate_pmt_nonpos; [assumption | lia].
Qed.

Lemma get_loan_status_returns (principal annual_rate : Q) (total_months n : Z) :
  (1 <= total_months)%Z ->
  exists balance pmt interest,
    calculate_pmt principal annual_rate total_months = Ok pmt /\
    get_loan_status principal annual_rate total_months n
    = Ok (balance, pmt, interest).
Proof.
  intros Hm.
  destruct (calculate_pmt_returns principal annual_rate total_months Hm)
    as [pmt Hp].
  unfold get_loan_status. rewrite Hp. simpl.
  eexists _, pmt, _. split; reflexivity.
Qed.

(** Over exact rationals [calculate_pmt] returns for every principal and
    every term of at least one month.  At a rate that is zero or negative it
    returns exactly [principal / months]; at a positive rate the divisor
    [(1 + r) ^ months - 1] is not zero and the result is the amortization
    formula. *)
Theorem calculate_pmt_total (principal annual_rate : Q) (months : Z) :
  (1 <= months)%Z ->
  (exists pmt, calculate_pmt principal annual_rate months = Ok pmt) /\
  (annual_rate <= 0 ->
   calculate_pmt principal annual_rate months
   = Ok (principal / inject_Z months)) /\
  calculate_pmt principal 0 months = Ok (principal / inject_Z months) /\
  (0 < annual_rate ->
   let r := annual_rate / 100 / 12 in
   ~ (1 + r) ^ months - 1 == 0 /\
   calculate_pmt principal annual_rate months
   = Ok (principal * (r * (1 + r) ^ months) / ((1 + r) ^ months - 1))).
Proof.
  intros Hm. split; [| split; [| split]].
  - now apply calculate_pmt_returns.
  - intros Hr. apply calculate_pmt_nonpos; [assumption | lia].
  - apply calculate_pmt_nonpos; [lra | lia].
  - intros Hr r. split.
    + pose proof (divisor_pos annual_rate months Hr Hm). subst r. lra.
    + now apply calculate_pmt_pos.
Qed.

(** ** Monotonicity of the payment in the rate *)

#[local] Instance geom_comp : Proper (Qeq ==> eq ==> Qeq) geom.
Proof.
  intros x y Hxy n m <-. induction n as [| n IH]; cbn [geom].
  - reflexivity.
  - now rewrite IH, Hxy.
Qed.

Lemma Qpower_succ (x : Q) (n : nat) :
  x ^ Z.of_nat (S n) == x * x ^ Z.of_nat n.
Proof.
  rewrite Nat2Z.inj_succ. unfold Z.succ.
  rewrite Qpower_plus' by lia. rewrite Qpower_1_r. ring.
Qed.

Lemma geom_closed (x : Q) (n : nat) :
  (x - 1) * geom x n == x ^ Z.of_nat n - 1.
Proof.
  induction n as [| n IH].
  - simpl. ring.
  - rewrite Qpower_succ. cbn [geom].
    setoid_replace ((x - 1) * (1 + x * geom x n))
      with (x - 1 + x * ((x - 1) * geom x n)) by ring.
    rewrite IH. ring.
Qed.

Lemma geom_one (n : nat) : geom 1 n == inject_Z (Z.of_nat n).
Proof.
  induction n as [| n IH].
  - reflexivity.
  - cbn [geom]. rewrite IH, Nat2Z.inj_succ. unfold Z.succ.
    rewrite inject_Z_plus. ring.
Qed.

Lemma geom_pos (x : Q) (n : nat) : 0 <= x -> (0 < n)%nat -> 0 < geom x n.
Proof.
  intros Hx Hn. destruct n as [| n]; [lia |].
  assert (H : forall m, 0 <= geom x m).
  { induction m as [| m IH]; cbn [geom]; [lra | nra]. }
  cbn [geom]. specialize (H n). nra.
Qed.

Lemma Qpower_nat_pos (x : Q) (n : nat) : 0 < x -> 0 < x ^ Z.of_nat n.
Proof. intros. now apply Qpower_0_lt. Qed.

Lemma Qpower_nat_lt (x y : Q) (n : nat) :
  0 < x -> x < y -> x ^ Z.of_nat (S n) < y ^ Z.of_nat (S n).
Proof.
  intros Hx Hxy. induction n as [| n IH].
  - change (Z.of_nat 1) with 1%Z. now rewrite !Qpower_1_r.
  - rewrite (Qpower_succ x (S n)), (Qpower_succ y (S n)).
    pose proof (Qpower_nat_pos x (S n) Hx). nra.
Qed.

(** The annuity factor [geom x n / x^n] does not increase with [x], and
    decreases once there is a payment to make. *)
Lemma annuity_le (x y : Q) (n : nat) :
  0 < x -> x < y ->
  x ^ Z.of_nat n * geom y n <= y ^ Z.of_nat n * geom x n.
Proof.
  intros Hx Hxy. induction n as [| n IH].
  - simpl. lra.
  - rewrite (Qpower_succ x n), (Qpower_succ y n). cbn [geom].
    pose proof (Qpower_nat_lt x y n Hx Hxy) as Hlt.
    rewrite (Qpower_succ x n), (Qpower_succ y n) in Hlt.
    set (a := x ^ Z.of_nat n) in *. set (b := y ^ Z.of_nat n) in *.
    set (gx := geom x n) in *. set (gy := geom y n) in *.
    assert (0 <= x * y) by nra.
    assert (x * y * (a * gy) <= x * y * (b * gx)) by nra.
    nra.
Qed.

Lemma annuity_lt (x y : Q) (n : nat) :
  0 < x -> x < y ->
  x ^ Z.of_nat (S n) * geom y (S n) < y ^ Z.of_nat (S n) * geom x (S n).
Proof.
  intros Hx Hxy.
  pose proof (annuity_le x y n Hx Hxy) as Hle.
  pose proof (Qpower_nat_lt x y n Hx Hxy) as Hlt.
  rewrite (Qpower_succ x n), (Qpower_succ y n) in *. cbn [geom].
  set (a := x ^ Z.of_nat n) in *. set (b := y ^ Z.of_nat n) in *.
  set (gx := geom x n) in *. set (gy := geom y n) in *.
  assert (0 <= x * y) by nra.
  assert (x * y * (a * gy) <= x * y * (b * gx)) by nra.
  nra.
Qed.

(** The payment in annuity form, for every rate from zero up. *)
Lemma calculate_pmt_annuity (principal annual_rate : Q) (n : nat) :
  0 <= annual_rate ->
  exists pmt,
    calculate_pmt principal annual_rate (Z.of_nat (S n)) = Ok pmt /\
    pmt * geom (1 + annual_rate * (1 # 1200)) (S n)
    == principal * (1 + annual_rate * (1 # 1200)) ^ Z.of_nat (S n).
Proof.
  intros Hr. destruct (Qlt_le_dec 0 annual_rate) as [Hpos | Hle].
  - eexists. split; [apply calculate_pmt_pos; [assumption | lia] |].
    pose proof (divisor_pos annual_rate (Z.of_nat (S n)) Hpos ltac:(lia)) as Hd.
    pose proof (geom_closed (1 + annual_rate * (1 # 1200)) (S n)) as Hg.
    revert Hd. rewrite !monthly_rate_eq.
    set (r := annual_rate * (1 # 1200)) in *.
    set (p := (1 + r) ^ Z.of_nat (S n)) in *.
    set (g := geom (1 + r) (S n)) in *.
    intros Hd.
    assert (Hg' : r * g == p - 1) by (rewrite <- Hg; ring).
    setoid_replace (principal * (r * p) / (p - 1) * g)
      with (principal * p * (r * g) / (p - 1)) by (field; lra).
    rewrite Hg'. field. lra.
  - assert (H0 : annual_rate == 0) by lra.
    eexists. split; [apply calculate_pmt_nonpos; [assumption | lia] |].
    setoid_replace (1 + annual_rate * (1 # 1200)) with 1 by (rewrite H0; ring).
    rewrite geom_one, Qpower_1. field.
    apply inject_Z_nonzero. lia.
Qed.

(** Over exact rationals, for a positive principal and a term of at least
    one month, the payment is strictly increasing in the annual rate over
    the rates from zero up. *)
Theorem calculate_pmt_increasing (principal r1 r2 : Q) (months : Z) :
  0 < principal -> (1 <= months)%Z -> 0 <= r1 -> r1 < r2 ->
  exists p1 p2,
    calculate_pmt principal r1 months = Ok p1 /\
    calculate_pmt principal r2 months = Ok p2 /\
    p1 < p2.
Proof.
  intros HP Hm Hr1 Hr12.
  destruct (Z.to_nat months) as [| n] eqn:En; [lia |].
  assert (Hmn : months = Z.of_nat (S n)) by lia.
  subst months.
  destruct (calculate_pmt_annuity principal r1 n Hr1) as (p1 & Hp1 & E1).
  destruct (calculate_pmt_annuity principal r2 n ltac:(lra)) as (p2 & Hp2 & E2).
  exists p1, p2. split; [assumption | split; [assumption |]].
  set (x := 1 + r1 * (1 # 1200)) in *. set (y := 1 + r2 * (1 # 1200)) in *.
  assert (Hx : 0 < x) by (subst x; lra).
  assert (Hxy : x < y) by (subst x y; lra).
  pose proof (annuity_lt x y n Hx Hxy) as Hlt.
  pose proof (geom_pos x (S n) ltac:(lra) ltac:(lia)) as Hgx.
  pose proof (geom_pos y (S n) ltac:(lra) ltac:(lia)) as Hgy.
  set (a := x ^ Z.of_nat (S n)) in *. set (b := y ^ Z.of_nat (S n)) in *.
  set (gx := geom x (S n)) in *. set (gy := geom y (S n)) in *.
  (* p1 gx = P a, p2 gy = P b, a gy < b gx *)
  assert (H1 : p1 * gx * gy < p2 * gy * gx).
  { rewrite E1, E2.
    setoid_replace (principal * a * gy) with (principal * (a * gy)) by ring.
    setoid_replace (principal * b * gx) with (principal * (b * gx)) by ring.
    apply Qmult_lt_l; assumption. }
  assert (Hg : 0 < gx * gy) by nra.
  apply Qnot_le_lt. intros Hle.
  assert (p2 * (gx * gy) <= p1 * (gx * gy)) by nra.
  lra.
Qed.

(** ** LOSS/GAIN labels *)

Lemma status_cases (savings : Q) :
  status savings = " (LOSS)"%string \/ status savings = " (GAIN)"%string.
Proof. unfold status. destruct (_ && _); auto. Qed.

Lemma status_loss_iff (savings : Q) :
  status savings = " (LOSS)"%string <-> savings < -0.01.
Proof.
  unfold status.
  destruct (Qlt_bool savings 0.01 && Qlt_bool 0.01 (Qabs savings)) eqn:E.
  - split; [intros _ | reflexivity].
    apply andb_true_iff in E. destruct E as [E1 E2].
    apply Qlt_bool_iff in E1, E2.
    revert E2. apply Qabs_case; intros; lra.
  - split; [discriminate |]. intros H. exfalso.
    apply andb_false_iff in E. destruct E as [E | E].
    + assert (~ savings < 0.01) by (rewrite <- Qlt_bool_iff; congruence). lra.
    + assert (Ha : ~ 0.01 < Qabs savings) by (rewrite <- Qlt_bool_iff; congruence).
      apply Ha. rewrite Qabs_neg by lra. lra.
Qed.

(** C9.  The label is LOSS exactly when the savings are strictly below
    -0.01, and GAIN otherwise; so it is GAIN for every non-negative amount
    and for every negative amount of absolute value at most 0.01. *)
Theorem status_loss_gain (savings : Q) :
  (status savings = " (LOSS)"%string <-> savings < -0.01) /\
  (status savings = " (GAIN)"%string <-> -0.01 <= savings) /\
  (0 <= savings -> status savings = " (GAIN)"%string) /\
  (savings < 0 -> Qabs savings <= 0.01 -> status savings = " (GAIN)"%string).
Proof.
  pose proof (status_loss_iff savings) as Hl.
  assert (Hg : status savings = " (GAIN)"%string <-> -0.01 <= savings).
  { destruct (status_cases savings) as [E | E]; rewrite E.
    - apply Hl in E. split; [discriminate | intros; exfalso; lra].
    - split; [intros _ | reflexivity].
      apply Qnot_lt_le. intros H. apply Hl in H. congruence. }
  split; [exact Hl | split; [exact Hg | split]].
  - intros H. apply Hg. lra.
  - intros Hneg Habs. apply Hg. rewrite Qabs_neg in Habs by lra. lra.
Qed.

(** ** The sale horizon *)

Section Horizon.

Local Open Scope Z_scope.

Lemma check_date_first_of_month (y m : Z) :
  MINYEAR <= y <= MAXYEAR -> 1 <= m <= 12 ->
  check_date y m 1 = Ok (mk_datetime y m 1).
Proof.
  unfold MINYEAR, MAXYEAR. intros Hy Hm. unfold check_date, fits_c_int.
  assert (Hd : 1 <= days_in_month y m).
  { unfold days_in_month.
    destruct (m =? 2); [destruct (isleap y); lia |].
    destruct ((m =? 4) || (m =? 6) || (m =? 9) || (m =? 11)); lia. }
  repeat match goal with
  | |- context [?a <=? ?b] =>
      let E := fresh in destruct (Z.leb_spec a b) as [E | E];
      [| unfold MINYEAR, MAXYEAR in *; simpl in *; lia]
  end.
  reflexivity.
Qed.

Lemma check_date_bad_year (y m d : Z) :
  ~ MINYEAR <= y <= MAXYEAR ->
  exists e, check_date y m d = Raise e.
Proof.
  intros Hy. unfold check_date.
  destruct (negb (fits_c_int y && fits_c_int m && fits_c_int d));
    [eexists; reflexivity |].
  destruct ((MINYEAR <=? y) && (y <=? MAXYEAR)) eqn:E;
    [| eexists; reflexivity].
  apply andb_true_iff in E. destruct E as [E1 E2].
  apply Z.leb_le in E1, E2. lia.
Qed.

(** [i / 12] and [i mod 12] from a quotient and a remainder that fit. *)
Ltac split_month_index quo rem :=
  f_equal;
  [ apply Z.div_unique with (r := rem); lia
  | let E := fresh "E" in
    match goal with
    | |- _ = ?i mod 12 + 1 =>
        assert (E : i mod 12 = rem)
          by (symmetry; apply Z.mod_unique with (q := quo); lia);
        lia
    end ].

(** Stepping back [n] months from the first of a month, before the range
    check of the resulting date. *)
Lemma datetime_sub_months (y0 m0 n : Z) :
  1 <= m0 <= 12 ->
  let i := month_index y0 m0 - n - 1 in
  datetime_sub (mk_datetime y0 m0 1) (relativedelta_months n)
  = check_date (i / 12) (i mod 12 + 1) 1.
Proof.
  intros Hm0 i. subst i. unfold month_index.
  unfold datetime_sub, datetime_add, relativedelta_neg, relativedelta_months.
  assert (Hdim : forall y m, Z.min (days_in_month y m) 1 = 1).
  { intros y m. unfold days_in_month.
    destruct (m =? 2); [destruct (isleap y); lia |].
    destruct ((m =? 4) || (m =? 6) || (m =? 9) || (m =? 11)); lia. }
  destruct (Z.ltb_spec 11 (Z.abs n)) as [Hbig | Hsmall].
  - (* the constructor carries whole years *)
    pose proof (Z_div_mod (n * Z.sgn n) 12 ltac:(lia)) as Hdm.
    destruct (Z.div_eucl (n * Z.sgn n) 12) as [q r].
    destruct Hdm as [Hq Hr]. cbn [years months year month day].
    assert (Hs : Z.sgn n = 1 \/ Z.sgn n = -1) by lia.
    set (dy := - (q * Z.sgn n)) in *. set (dm := - (r * Z.sgn n)) in *.
    assert (Hn : - n = 12 * dy + dm) by (subst dy dm; lia).
    assert (Hdm : -11 <= dm <= 11) by (subst dm; lia).
    clearbody dy dm.
    destruct (Z.eqb_spec dm 0) as [Hz | Hnz]; cbn [negb].
    + rewrite Hdim. split_month_index (y0 + dy) (m0 - 1).
    + destruct (Z.ltb_spec 12 (m0 + dm)) as [H12 | H12].
      * rewrite Hdim. split_month_index (y0 + dy + 1) (m0 + dm - 12 - 1).
      * destruct (Z.ltb_spec (m0 + dm) 1) as [H1 | H1]; rewrite Hdim.
        -- split_month_index (y0 + dy - 1) (m0 + dm + 12 - 1).
        -- split_month_index (y0 + dy) (m0 + dm - 1).
  - (* fewer than twelve months: no years *)
    cbn [years months year month day].
    destruct (Z.eqb_spec (- n) 0) as [Hz | Hnz]; cbn [negb].
    + rewrite Hdim. split_month_index (y0 + - 0) (m0 - 1).
    + destruct (Z.ltb_spec 12 (m0 + - n)) as [H12 | H12].
      * rewrite Hdim. split_month_index (y0 + - 0 + 1) (m0 + - n - 12 - 1).
      * destruct (Z.ltb_spec (m0 + - n) 1) as [H1 | H1]; rewrite Hdim.
        -- split_month_index (y0 + - 0 - 1) (m0 + - n + 12 - 1).
        -- split_month_index (y0 + - 0) (m0 + - n - 1).
Qed.

Lemma first_payment_date_ok (payments_made : Z) :
  MINYEAR <= year (first_payment_month payments_made) <= MAXYEAR ->
  datetime_sub (mk_datetime CURRENT_YEAR CURRENT_MONTH 1)
    (relativedelta_months (payments_made - 1))
  = Ok (first_payment_month payments_made).
Proof.
  intros Hy. rewrite datetime_sub_months by (unfold CURRENT_MONTH; lia).
  unfold first_payment_month, first_payment_index in *. cbn [year] in Hy.
  apply check_date_first_of_month; [exact Hy |].
  pose proof (Z.mod_pos_bound
    (month_index CURRENT_YEAR CURRENT_MONTH - (payments_made - 1) - 1) 12
    ltac:(lia)).
  lia.
Qed.

Lemma first_payment_index_eq (payments_made : Z) :
  month_index (year (first_payment_month payments_made))
              (month (first_payment_month payments_made))
  = first_payment_index payments_made.
Proof.
  unfold first_payment_month, month_index. cbn [year month].
  pose proof (Z.div_mod (first_payment_index payments_made - 1) 12 ltac:(lia)).
  lia.
Qed.

(** C2, amended.  When the sale year is within 1..9999, the sale month within
    1..12 and the first-payment month within the years 1..9999,
    [calculate_total_payments_until_sale] raises exactly when the inclusive
    month count from the first payment through the sale month is below the
    payments made, which is when the sale month precedes the current
    reference month; otherwise it returns that count and the label of the
    first-payment month. *)
Theorem horizon_fails_iff_sale_before_current
    (payments_made sell_year sell_month : Z) :
  MINYEAR <= sell_year <= MAXYEAR ->
  1 <= sell_month <= 12 ->
  MINYEAR <= year (first_payment_month payments_made) <= MAXYEAR ->
  let count := inclusive_month_count payments_made sell_year sell_month in
  (count < payments_made ->
   calculate_total_payments_until_sale payments_made sell_year sell_month
   = Raise (ValueError_sale_before_current
              (strftime_b_Y (mk_datetime sell_year sell_month 1)) count)) /\
  (payments_made <= count ->
   calculate_total_payments_until_sale payments_made sell_year sell_month
   = Ok (count, strftime_b_Y (first_payment_month payments_made))) /\
  ((exists e, calculate_total_payments_until_sale
                payments_made sell_year sell_month = Raise e)
   <-> count < payments_made) /\
  (count < payments_made
   <-> month_index sell_year sell_month
       < month_index CURRENT_YEAR CURRENT_MONTH).
Proof.
  intros Hsy Hsm Hfy count.
  assert (Hcalc :
    calculate_total_payments_until_sale payments_made sell_year sell_month
    = if count <? payments_made
      then Raise (ValueError_sale_before_current
                    (strftime_b_Y (mk_datetime sell_year sell_month 1)) count)
      else Ok (count, strftime_b_Y (first_payment_month payments_made))).
  { unfold calculate_total_payments_until_sale, datetime_new.
    rewrite (check_date_first_of_month CURRENT_YEAR CURRENT_MONTH)
      by (unfold CURRENT_YEAR, CURRENT_MONTH, MINYEAR, MAXYEAR; lia).
    cbn [bind]. rewrite first_payment_date_ok by exact Hfy. cbn [bind].
    rewrite check_date_first_of_month by assumption. cbn [bind year month].
    assert (E : 12 * (sell_year - year (first_payment_month payments_made))
                + (sell_month - month (first_payment_month payments_made)) + 1
                = count).
    { subst count. unfold inclusive_month_count.
      rewrite <- first_payment_index_eq. unfold month_index. lia. }
    rewrite E. reflexivity. }
  rewrite Hcalc.
  destruct (Z.ltb_spec count payments_made) as [Hlt | Hge].
  - split; [reflexivity | split; [lia | split]].
    + split; [intros _; exact Hlt | intros _; eexists; reflexivity].
    + subst count. unfold inclusive_month_count, first_payment_index in *. lia.
  - split; [lia | split; [reflexivity | split]].
    + split; [intros [e He]; discriminate | lia].
    + subst count. unfold inclusive_month_count, first_payment_index in *. lia.
Qed.

Lemma horizon_fails_iff_sale_before_current_witness :
  calculate_total_payments_until_sale 4 2035 7 = Ok (120, "Aug 2025"%string)
  /\ calculate_total_payments_until_sale 4 2025 10
     = Raise (ValueError_sale_before_current "Oct 2025" 3).
Proof.
  split.
  - apply (horizon_fails_iff_sale_before_current 4 2035 7);
      vm_compute; intuition discriminate.
  - apply (horizon_fails_iff_sale_before_current 4 2025 10);
      vm_compute; intuition discriminate.
Defined.

(** C2 as stated fails: a sale year that [datetime] cannot represent makes
    the function raise although the month count is not below the payments
    made. *)
Lemma horizon_out_of_range_counterexample :
  4 <= inclusive_month_count 4 10000 7 /\
  calculate_total_payments_until_sale 4 10000 7 = Raise ValueError_out_of_range.
Proof. split; [vm_compute; discriminate | reflexivity]. Qed.

(** C6.  With 4 payments made and a sale in July 2035, against the reference
    month November 2025, the horizon is 120 months and the first payment is
    labelled "Aug 2025": the reference month stepped back 3 months. *)
Theorem horizon_default_configuration :
  calculate_total_payments_until_sale 4 2035 7 = Ok (120, "Aug 2025"%string)
  /\ datetime_sub (mk_datetime CURRENT_YEAR CURRENT_MONTH 1)
       (relativedelta_months (4 - 1))
     = Ok (mk_datetime 2025 8 1)
  /\ CURRENT_YEAR = 2025 /\ CURRENT_MONTH = 11.
Proof. repeat split. Qed.

End Horizon.

(** ** The candidate rates *)

Lemma arange_count (orig : Q) :
  (2.99 - orig) / -0.001 == (orig - 2.99) * 1000.
Proof. field. Qed.

Lemma search_rates_eq (L : Locals) :
  search_rates L
  = map (fun i => original_rate L + inject_Z (Z.of_nat i) * -0.001)
        (seq 0 (Z.to_nat (Qceiling ((original_rate L - 2.99) * 1000)))).
Proof.
  unfold search_rates, arange. now rewrite arange_count.
Qed.

Lemma below_count_iff (orig : Q) (i : nat) :
  (i < Z.to_nat (Qceiling ((orig - 2.99) * 1000)))%nat
  <-> 2.99 < orig + inject_Z (Z.of_nat i) * -0.001.
Proof.
  set (q := (orig - 2.99) * 1000).
  assert (Hq : 2.99 < orig + inject_Z (Z.of_nat i) * -0.001
               <-> inject_Z (Z.of_nat i) < q) by (subst q; split; intros; lra).
  rewrite Hq. split.
  - intros Hi.
    assert (Hz : (Z.of_nat i <= Qceiling q - 1)%Z) by lia.
    apply Qle_lt_trans with (inject_Z (Qceiling q - 1)).
    + now rewrite <- Zle_Qle.
    + apply Qceiling_lt.
  - intros Hi.
    assert (Hz : (Z.of_nat i < Qceiling q)%Z).
    { rewrite Zlt_Qlt. apply Qlt_le_trans with q; [exact Hi | apply Qle_ceiling]. }
    lia.
Qed.


Lemma search_rates_head (L : Locals) :
  2.99 < original_rate L ->
  exists rest,
    search_rates L = (original_rate L + inject_Z (Z.of_nat 0) * -0.001) :: rest.
Proof.
  intros H. rewrite search_rates_eq.
  assert (Hi : (0 < Z.to_nat (Qceiling ((original_rate L - 2.99) * 1000)))%nat).
  { apply below_count_iff. change (inject_Z (Z.of_nat 0)) with 0. lra. }
  destruct (Z.to_nat _) as [| n]; [lia |]. simpl. eexists. reflexivity.
Qed.

(** ** The search loop *)

Section SearchProofs.

Variable L : Locals.

Lemma search_body_eq (s l : option Q) (r_new : Q) :
  search_body L (s, l) r_new
  = Ok (if sale_cheaper L r_new && is_None s then Some r_new else s,
        if lifetime_cheaper L r_new && is_None l then Some r_new else l).
Proof.
  destruct (get_loan_status_returns (cost_refi_loan_amt L) r_new 360
              (refi_payments_until_sale L) ltac:(lia))
    as (balance & pmt & interest & Hp & Hs).
  unfold search_body, sale_cheaper, lifetime_cheaper.
  rewrite Hp, Hs. reflexivity.
Qed.

Lemma search_loop_eq (rates : list Q) (s l : option Q) :
  for_each rates (search_body L) (s, l)
  = Ok (keep_first s (sale_cheaper L) rates,
        keep_first l (lifetime_cheaper L) rates).
Proof.
  revert s l. induction rates as [| r rates IH]; intros s l.
  - destruct s, l; reflexivity.
  - cbn [for_each]. rewrite search_body_eq. cbn [bind]. rewrite IH.
    destruct s, l; cbn [keep_first is_None find];
      rewrite ?andb_false_r, ?andb_true_r;
      destruct (sale_cheaper L r), (lifetime_cheaper L r); reflexivity.
Qed.

Lemma find_tipping_points_eq :
  find_tipping_points L
  = Ok (first_or_original L (sale_cheaper L),
        first_or_original L (lifetime_cheaper L)).
Proof.
  unfold find_tipping_points. rewrite search_loop_eq. reflexivity.
Qed.

End SearchProofs.

Lemma find_first_qualifying (p : Q -> bool) (rates : list Q) (default : Q) :
  first_qualifying p rates default
    (match find p rates with None => default | Some r => r end).
Proof.
  induction rates as [| r rates IH]; cbn [find].
  - left. split; [constructor | reflexivity].
  - destruct (p r) eqn:E.
    + right. exists [], rates. repeat split; [constructor | exact E].
    + destruct IH as [[Hall Heq] | (before & after & Hr & Hb & Hp)].
      * left. split; [constructor; assumption | exact Heq].
      * right. exists (r :: before), after.
        split; [simpl; f_equal; exact Hr |].
        split; [constructor; assumption | exact Hp].
Qed.

Lemma sorted_split (before after : list Q) (t : Q) :
  StronglySorted (fun x y => y < x) (before ++ t :: after) ->
  Forall (fun b => t < b) before /\ Forall (fun a => a < t) after.
Proof.
  induction before as [| b before IH]; simpl; intros H.
  - inversion H; subst. split; [constructor | assumption].
  - inversion H as [| ? ? Hs Hf]; subst.
    destruct (IH Hs) as [Hb Ha]. split; [| exact Ha].
    constructor; [| exact Hb].
    rewrite Forall_forall in Hf. apply Hf. apply in_elt.
Qed.

Lemma first_qualifying_highest (p : Q -> bool) (rates : list Q)
    (default t : Q) :
  StronglySorted (fun x y => y < x) rates ->
  first_qualifying p rates default t ->
  forall r, In r rates -> p r = true -> r <= t.
Proof.
  intros Hs [[Hall _] | (before & after & Hr & Hb & Hp)] r Hin Hpr.
  - rewrite Forall_forall in Hall. rewrite Hall in Hpr by assumption.
    discriminate.
  - rewrite Hr in Hs, Hin.
    destruct (sorted_split _ _ _ Hs) as [_ Ha].
    apply in_app_or in Hin. destruct Hin as [Hin | [<- | Hin]].
    + rewrite Forall_forall in Hb. rewrite Hb in Hpr by assumption.
      discriminate.
    + lra.
    + rewrite Forall_forall in Ha. apply Qlt_le_weak, Ha, Hin.
Qed.

Lemma first_qualifying_candidate (p : Q -> bool) (rates : list Q)
    (original t : Q) :
  (forall r rest, rates = r :: rest -> r = original) ->
  first_qualifying p rates original t ->
  candidate_or_original p rates original t.
Proof.
  intros Hhead [[Hall ->] | (before & after & Hr & Hb & Hp)].
  - split; [right; reflexivity |].
    split; [intros _; left; exact Hall | reflexivity].
  - assert (Hin : In t rates) by (rewrite Hr; apply in_elt).
    split; [left; split; assumption |]. split.
    + intros <-. right. exact Hp.
    + intros [Hall | Ho].
      * rewrite Forall_forall in Hall. rewrite Hall in Hp by assumption.
        discriminate.
      * destruct before as [| b before].
        -- exact (Hhead _ _ Hr).
        -- exfalso. simpl in Hr. rewrite (Hhead _ _ Hr) in Hb.
           apply Forall_inv in Hb. congruence.
Qed.

(** ** The candidates in binary64 *)

Lemma np_arange_inv (start stop step : float) (l : list float) :
  np_arange start stop step = Ok l ->
  exists n,
    arange_safe_ceil_to_intp ((stop - start) / step) = Ok n /\
    l = map (np_arange_item start (start + step)) (seq 0 (Z.to_nat n)).
Proof.
  unfold np_arange. destruct (step =? 0)%float; [discriminate |].
  destruct (arange_safe_ceil_to_intp ((stop - start) / step)) as [n | e];
    cbn [bind]; [| discriminate].
  destruct (n <=? 0)%Z eqn:E; intros H; injection H as <-; exists n.
  - split; [reflexivity |].
    replace (Z.to_nat n) with 0%nat by lia. reflexivity.
  - split; reflexivity.
Qed.

Lemma np_arange_nth (start stop step : float) (l : list float)
    (i : nat) (x : float) :
  np_arange start stop step = Ok l ->
  nth_error l i = Some x ->
  x = np_arange_item start (start + step) i.
Proof.
  intros H Hi. destruct (np_arange_inv _ _ _ _ H) as (n & _ & ->).
  rewrite nth_error_map in Hi.
  destruct (nth_error (seq 0 (Z.to_nat n)) i) as [j |] eqn:Ej;
    [| discriminate].
  injection Hi as <-.
  assert (Hlt : (i < length (seq 0 (Z.to_nat n)))%nat)
    by (apply nth_error_Some; congruence).
  rewrite length_seq in Hlt.
  rewrite (nth_error_nth' _ 0%nat) in Ej by (rewrite length_seq; exact Hlt).
  rewrite seq_nth in Ej by exact Hlt. injection Ej as <-. reflexivity.
Qed.

Lemma np_arange_head (start stop step : float) (l : list float) :
  np_arange start stop step = Ok l ->
  forall r rest, map b64_to_Q l = r :: rest -> r = b64_to_Q start.
Proof.
  intros H r rest Hl. destruct l as [| x l']; [discriminate |].
  injection Hl as <- _.
  now rewrite (np_arange_nth _ _ _ _ 0 x H eq_refl).
Qed.

Lemma find_tipping_points_b64_eq (L : Locals) (original_rate : float)
    (search_rates : list float) :
  np_arange original_rate 2.99 (-0.001) = Ok search_rates ->
  find_tipping_points_b64 L original_rate
  = Ok (match find (sale_cheaper L) (map b64_to_Q search_rates) with
        | None => b64_to_Q original_rate
        | Some r => r
        end,
        match find (lifetime_cheaper L) (map b64_to_Q search_rates) with
        | None => b64_to_Q original_rate
        | Some r => r
        end).
Proof.
  intros H. unfold find_tipping_points_b64. rewrite H. cbn [bind].
  rewrite search_loop_eq. reflexivity.
Qed.

Lemma find_tipping_points_b64_raise (L : Locals) (original_rate : float)
    (e : exn) :
  np_arange original_rate 2.99 (-0.001) = Raise e ->
  find_tipping_points_b64 L original_rate = Raise e.
Proof.
  intros H. unfold find_tipping_points_b64. rewrite H. reflexivity.
Qed.

Lemma descending_b_sorted (l : list Q) :
  descending_b l = true -> StronglySorted (fun x y => y < x) l.
Proof.
  intros H. apply Sorted_StronglySorted.
  - intros x y z Hxy Hyz. lra.
  - induction l as [| x l IH]; [constructor |].
    constructor.
    + apply IH. destruct l as [| y rest]; [reflexivity |].
      cbn [descending_b] in H. now apply andb_prop in H.
    + destruct l as [| y rest]; constructor.
      cbn [descending_b] in H. apply andb_prop in H.
      now apply Qlt_bool_iff.
Qed.

(** From the default rate 6.625 the scan has 3635 candidates, strictly
    descending, the last being 2.9909999999987864. *)
Lemma default_candidates_descending :
  exists search_rates,
    np_arange 6.625 2.99 (-0.001) = Ok search_rates /\
    length search_rates = 3635%nat /\
    nth_error search_rates 3634 = Some 2.9909999999987864%float /\
    StronglySorted (fun x y => y < x) (map b64_to_Q search_rates).
Proof.
  eexists. split; [vm_compute; reflexivity |].
  split; [vm_compute; reflexivity |].
  split; [vm_compute; reflexivity |].
  apply descending_b_sorted. vm_compute. reflexivity.
Qed.

(** C1 as stated fails: from 4.15 the scan has 1161 candidates; the first
    two are 4.15 and 4.149, whose difference in binary64, the stride of all
    later candidates, is -0.001000000000000334; and the last candidate,
    2.989999999999613, is below the floor 2.99. *)
Lemma scan_below_floor_counterexample :
  exists search_rates,
    np_arange 4.15 2.99 (-0.001) = Ok search_rates /\
    length search_rates = 1161%nat /\
    nth_error search_rates 0 = Some 4.15%float /\
    nth_error search_rates 1 = Some 4.149%float /\
    (4.149 - 4.15)%float = (-0.001000000000000334)%float /\
    nth_error search_rates 1160 = Some 2.989999999999613%float /\
    (2.989999999999613 <? 2.99)%float = true.
Proof.
  eexists. split; [vm_compute; reflexivity |].
  repeat split; vm_compute; reflexivity.
Qed.

(** C1, amended.  The search scans the candidates of
    [np.arange(original_rate, 2.99, -0.001)] as NumPy computes them in
    binary64: their number is the ceiling of
    [(2.99 - original_rate) / -0.001]; the first is the original rate, the
    second [original_rate + -0.001], and the one at index [i >= 2] is
    [original_rate + i * ((original_rate + -0.001) - original_rate)].
    For each of the sale and lifetime predicates the rate returned is the
    first candidate in this order that satisfies the predicate (the original
    rate when none does): no candidate before it qualifies and no later one
    replaces it.  Where the candidates are strictly descending, every
    qualifying candidate is at most it.  When [np.arange] raises, the search
    raises the same. *)
Theorem search_records_first_scanned (L : Locals) (original_rate : float) :
  match np_arange original_rate 2.99 (-0.001) with
  | Raise e => find_tipping_points_b64 L original_rate = Raise e
  | Ok search_rates =>
      (exists n,
         arange_safe_ceil_to_intp ((2.99 - original_rate) / -0.001) = Ok n /\
         length search_rates = Z.to_nat n) /\
      (forall i r_new, nth_error search_rates i = Some r_new ->
         r_new = match i with
                 | O => original_rate
                 | S O => original_rate + -0.001
                 | _ => original_rate
                        + b64_of_Z (Z.of_nat i)
                          * ((original_rate + -0.001) - original_rate)
                 end)%float /\
      let rates := map b64_to_Q search_rates in
      exists ts tl,
        find_tipping_points_b64 L original_rate = Ok (ts, tl) /\
        first_qualifying (sale_cheaper L) rates (b64_to_Q original_rate) ts /\
        first_qualifying (lifetime_cheaper L) rates
          (b64_to_Q original_rate) tl /\
        (StronglySorted (fun x y => y < x) rates ->
         (forall r, In r rates -> sale_cheaper L r = true -> r <= ts) /\
         (forall r, In r rates -> lifetime_cheaper L r = true -> r <= tl))
  end.
Proof.
  destruct (np_arange original_rate 2.99 (-0.001)) as [search_rates | e]
    eqn:H; [| now apply find_tipping_points_b64_raise].
  split; [| split].
  - destruct (np_arange_inv _ _ _ _ H) as (n & Hn & ->).
    exists n. split; [exact Hn |]. now rewrite length_map, length_seq.
  - intros i r_new Hi. exact (np_arange_nth _ _ _ _ _ _ H Hi).
  - intros rates. eexists _, _.
    split; [exact (find_tipping_points_b64_eq L _ _ H) |].
    pose proof (find_first_qualifying (sale_cheaper L) rates
                  (b64_to_Q original_rate)) as Hs.
    pose proof (find_first_qualifying (lifetime_cheaper L) rates
                  (b64_to_Q original_rate)) as Hl.
    split; [exact Hs | split; [exact Hl |]].
    intros Hd. split; eapply first_qualifying_highest; eassumption.
Qed.

(** C3, amended.  Each tipping rate is a scanned candidate that satisfies
    its predicate, or equals the original rate; it equals the original rate
    exactly when no scanned candidate satisfies the predicate or when the
    original rate, which is the first candidate scanned, satisfies it. *)
Theorem tipping_rate_candidate_or_original (L : Locals)
    (original_rate : float) :
  match np_arange original_rate 2.99 (-0.001) with
  | Raise e => find_tipping_points_b64 L original_rate = Raise e
  | Ok search_rates =>
      let rates := map b64_to_Q search_rates in
      exists ts tl,
        find_tipping_points_b64 L original_rate = Ok (ts, tl) /\
        candidate_or_original (sale_cheaper L) rates
          (b64_to_Q original_rate) ts /\
        candidate_or_original (lifetime_cheaper L) rates
          (b64_to_Q original_rate) tl
  end.
Proof.
  destruct (np_arange original_rate 2.99 (-0.001)) as [search_rates | e]
    eqn:H; [| now apply find_tipping_points_b64_raise].
  intros rates. eexists _, _.
  split; [exact (find_tipping_points_b64_eq L _ _ H) |].
  split; apply first_qualifying_candidate;
    try apply find_first_qualifying; exact (np_arange_head _ _ _ _ H).
Qed.

(** ** The original loan, the table and the whole analysis *)

Lemma get_loan_status_eq (principal annual_rate pmt : Q) (total_months n : Z) :
  calculate_pmt principal annual_rate total_months = Ok pmt ->
  get_loan_status principal annual_rate total_months n
  = Ok (balance_after principal annual_rate pmt n, pmt,
        pmt * inject_Z (total_months - n)
        - balance_after principal annual_rate pmt n).
Proof. intros H. unfold get_loan_status. rewrite H. reflexivity. Qed.

Lemma original_loan_eq (args : Args) (n : Z) (label : string) (pmt : Q) :
  calculate_total_payments_until_sale (paid args) (sell_year args)
    (sell_month args) = Ok (n, label) ->
  calculate_pmt (amount args) (rate args) (term args) = Ok pmt ->
  let rp := balance_after (amount args) (rate args) pmt (paid args) in
  original_loan args
  = Ok (mk_Locals (rate args) (term args) (paid args) n label rp pmt
          (rp * costs_pct args) (rp + rp * costs_pct args) (n - paid args)
          (pmt * inject_Z n
           + balance_after (amount args) (rate args) pmt n)).
Proof.
  intros Hn Hp rp. unfold original_loan. rewrite Hn. cbn [bind].
  rewrite !(get_loan_status_eq _ _ pmt) by exact Hp. reflexivity.
Qed.

Lemma original_loan_inv (args : Args) (L : Locals) :
  original_loan args = Ok L ->
  exists n label pmt,
    calculate_total_payments_until_sale (paid args) (sell_year args)
      (sell_month args) = Ok (n, label) /\
    calculate_pmt (amount args) (rate args) (term args) = Ok pmt /\
    L = mk_Locals (rate args) (term args) (paid args) n label
          (balance_after (amount args) (rate args) pmt (paid args)) pmt
          (balance_after (amount args) (rate args) pmt (paid args)
           * costs_pct args)
          (balance_after (amount args) (rate args) pmt (paid args)
           + balance_after (amount args) (rate args) pmt (paid args)
             * costs_pct args)
          (n - paid args)
          (pmt * inject_Z n + balance_after (amount args) (rate args) pmt n).
Proof.
  intros H.
  destruct (calculate_total_payments_until_sale (paid args) (sell_year args)
              (sell_month args)) as [[n label] | e] eqn:Hn.
  - destruct (calculate_pmt (amount args) (rate args) (term args))
      as [pmt | e] eqn:Hp.
    + exists n, label, pmt. split; [reflexivity | split; [reflexivity |]].
      pose proof (original_loan_eq args n label pmt Hn Hp) as E.
      cbv zeta in E. congruence.
    + exfalso. unfold original_loan in H. rewrite Hn in H. cbn [bind] in H.
      unfold get_loan_status in H. rewrite Hp in H. discriminate.
  - exfalso. unfold original_loan in H. rewrite Hn in H.
    destruct e; discriminate.
Qed.

Section TableProofs.

Variable L : Locals.

Lemma table_row_eq (r_new : Q) :
  exists pmt_refi,
    calculate_pmt (cost_refi_loan_amt L) r_new 360 = Ok pmt_refi /\
    table_row L r_new
    = Ok (mk_Row r_new
            (pmt_orig L - pmt_refi)
            (total_cost_orig_at_sale L
             - (pmt_orig L * inject_Z (payments_made L)
                + pmt_refi * inject_Z (refi_payments_until_sale L)
                + balance_after (cost_refi_loan_amt L) r_new pmt_refi
                    (refi_payments_until_sale L)))
            (pmt_orig L * inject_Z (original_term_months L - payments_made L)
             - pmt_refi * 360)).
Proof.
  destruct (calculate_pmt_returns (cost_refi_loan_amt L) r_new 360 ltac:(lia))
    as [pmt_refi Hp].
  exists pmt_refi. split; [exact Hp |].
  unfold table_row. rewrite Hp. cbn [bind].
  rewrite (get_loan_status_eq _ _ pmt_refi) by exact Hp. reflexivity.
Qed.

Lemma table_row_rate (r_new : Q) :
  exists row, table_row L r_new = Ok row /\ row_rate row = r_new.
Proof.
  destruct (table_row_eq r_new) as (pmt_refi & _ & E).
  eexists. split; [exact E | reflexivity].
Qed.

Lemma build_table_loop (rates : list Q) (acc : list Row) :
  exists rows,
    for_each rates
      (fun table_data r_new =>
         row <- table_row L r_new ;; Ok (table_data ++ [row])) acc
    = Ok (acc ++ rows)
    /\ map row_rate rows = rates.
Proof.
  revert acc. induction rates as [| r rates IH]; intros acc.
  - exists []. split; [now rewrite app_nil_r | reflexivity].
  - destruct (table_row_rate r) as (row & Hrow & Hr).
    destruct (IH (acc ++ [row])) as (rows & Hl & Hm).
    exists (row :: rows). cbn [for_each]. rewrite Hrow. cbn [bind].
    rewrite Hl. split; [now rewrite <- app_assoc | cbn; congruence].
Qed.

Lemma build_table_returns (rates : list Q) :
  exists rows, build_table L rates = Ok rows /\ map row_rate rows = rates.
Proof. apply (build_table_loop rates []). Qed.

End TableProofs.

Lemma run_analysis_eq (args : Args) (L : Locals) :
  original_loan args = Ok L ->
  exists table,
    map row_rate table
    = table_rates L (first_or_original L (sale_cheaper L))
        (first_or_original L (lifetime_cheaper L)) /\
    run_analysis args
    = Ok (mk_Report L (first_or_original L (sale_cheaper L))
            (first_or_original L (lifetime_cheaper L)) table).
Proof.
  intros HL.
  destruct (build_table_returns L
    (table_rates L (first_or_original L (sale_cheaper L))
       (first_or_original L (lifetime_cheaper L))))
    as (table & Ht & Hm).
  exists table. split; [exact Hm |].
  unfold run_analysis. rewrite HL. cbn [bind].
  rewrite find_tipping_points_eq. cbn [bind].
  rewrite Ht. reflexivity.
Qed.


(** C4.  The refinanced principal is the balance left on the original loan
    after the payments made, times [1 + closing cost percent].  At every
    candidate rate the refinance payment and the refinance balance at the
    sale are those of a 360-month loan of that principal, and both the
    search step and the table row are computed from them, whatever the
    original term is. *)
Theorem refinance_principal_and_term (args : Args) (L : Locals) :
  original_loan args = Ok L ->
  (exists pmt interest,
     get_loan_status (amount args) (rate args) (term args) (paid args)
     = Ok (remaining_principal L, pmt, interest)) /\
  cost_refi_loan_amt L == remaining_principal L * (1 + costs_pct args) /\
  forall r_new,
    exists pmt_refi balance interest,
      calculate_pmt (cost_refi_loan_amt L) r_new 360 = Ok pmt_refi /\
      get_loan_status (cost_refi_loan_amt L) r_new 360
        (refi_payments_until_sale L) = Ok (balance, pmt_refi, interest) /\
      (forall s l,
         search_body L (s, l) r_new
         = Ok (if Qlt_bool
                    (pmt_orig L * inject_Z (payments_made L)
                     + pmt_refi * inject_Z (refi_payments_until_sale L)
                     + balance)
                    (total_cost_orig_at_sale L) && is_None s
               then Some r_new else s,
               if Qlt_bool (pmt_refi * 360)
                    (pmt_orig L
                     * inject_Z (original_term_months L - payments_made L))
                  && is_None l
               then Some r_new else l)) /\
      table_row L r_new
      = Ok (mk_Row r_new
              (pmt_orig L - pmt_refi)
              (total_cost_orig_at_sale L
               - (pmt_orig L * inject_Z (payments_made L)
                  + pmt_refi * inject_Z (refi_payments_until_sale L)
                  + balance))
              (pmt_orig L
               * inject_Z (original_term_months L - payments_made L)
               - pmt_refi * 360)).
Proof.
  intros HL.
  destruct (original_loan_inv args L HL) as (n & label & pmt & Hn & Hp & ->).
  cbn [remaining_principal cost_refi_loan_amt].
  split; [| split].
  - eexists _, _. apply get_loan_status_eq, Hp.
  - ring.
  - intros r_new.
    set (L := mk_Locals _ _ _ _ _ _ _ _ _ _ _).
    destruct (table_row_eq L r_new) as (pmt_refi & Hr & Ht).
    pose proof (get_loan_status_eq (cost_refi_loan_amt L) r_new pmt_refi 360
                  (refi_payments_until_sale L) Hr) as Hs.
    eexists pmt_refi, _, _.
    split; [exact Hr | split; [exact Hs | split; [| exact Ht]]].
    intros s l. rewrite search_body_eq.
    unfold sale_cheaper, lifetime_cheaper. rewrite Hr, Hs. reflexivity.
Qed.

Lemma refinance_principal_and_term_witness :
  exists L,
    original_loan (mk_Args 1000 0 10 1 2025 12 0.02) = Ok L /\
    cost_refi_loan_amt L == remaining_principal L * (1 + 0.02).
Proof.
  destruct (original_loan (mk_Args 1000 0 10 1 2025 12 0.02)) as [L | e] eqn:E.
  - exists L. split; [reflexivity |].
    exact (proj1 (proj2
             (refinance_principal_and_term
                (mk_Args 1000 0 10 1 2025 12 0.02) L E))).
  - exfalso. vm_compute in E. discriminate.
Defined.



(** At one rate, 360 payments total less than 480 payments of the same
    principal: with [y = (1 + m) ^ 120] the difference is a positive
    multiple of [y^3 (y - 1)^2 (y^2 + 2 y + 3)]. *)
Lemma Qpower_cube (y : Q) : y ^ 3 == y * y * y.
Proof. simpl. ring. Qed.

Lemma Qpower_fourth (y : Q) : y ^ 4 == y * y * y * y.
Proof. simpl. ring. Qed.

Lemma annuity_360_lt_480 (P m : Q) :
  0 < P -> 0 < m ->
  P * (m * (1 + m) ^ 360) / ((1 + m) ^ 360 - 1) * 360
  < P * (m * (1 + m) ^ 480) / ((1 + m) ^ 480 - 1) * 480.
Proof.
  intros HP Hm.
  assert (Hy : 1 < (1 + m) ^ 120) by (apply Qpower_1_lt; [lra | lia]).
  assert (E360 : (1 + m) ^ 360 == (1 + m) ^ 120 * (1 + m) ^ 120 * (1 + m) ^ 120).
  { rewrite <- Qpower_cube. exact (Qpower_mult (1 + m) 120 3). }
  assert (E480 : (1 + m) ^ 480
                 == (1 + m) ^ 120 * (1 + m) ^ 120 * (1 + m) ^ 120
                    * (1 + m) ^ 120).
  { rewrite <- Qpower_fourth. exact (Qpower_mult (1 + m) 120 4). }
  rewrite E360, E480. clear E360 E480.
  set (y := (1 + m) ^ 120) in *. clearbody y.
  assert (H2 : 1 < y * y) by nra.
  assert (H3 : 1 < y * y * y) by nra.
  assert (H4 : 1 < y * y * y * y) by nra.
  assert (Hkey : 0 < (y * y * y - 1) * (y * y * y * y - 1)
                   + 4 * (y * y * y - 1) - 3 * (y * y * y * y - 1)).
  { setoid_replace ((y * y * y - 1) * (y * y * y * y - 1)
                    + 4 * (y * y * y - 1) - 3 * (y * y * y * y - 1))
      with (y * y * y * ((y - 1) * (y - 1)) * (y * y + 2 * y + 3)) by ring.
    assert (0 < y * y * y) by lra.
    assert (0 < (y - 1) * (y - 1)) by nra.
    assert (0 < y * y + 2 * y + 3) by nra.
    apply Qmult_lt_0_compat; [apply Qmult_lt_0_compat |]; assumption. }
  remember (y * y * y - 1) as a eqn:Ea.
  remember (y * y * y * y - 1) as b eqn:Eb.
  assert (Hna : y * y * y == a + 1) by (subst a; ring).
  assert (Hnb : y * y * y * y == b + 1) by (subst b; ring).
  assert (Ha : 0 < a) by (subst a; lra).
  assert (Hb : 0 < b) by (subst b; lra).
  clear Ea Eb. rewrite Hnb, Hna. clear Hna Hnb H2 H3 H4 Hy y.
  assert (Hab : 0 < a * b) by (apply Qmult_lt_0_compat; assumption).
  apply (Qmult_lt_r _ _ (a * b) Hab).
  setoid_replace (P * (m * (a + 1)) / a * 360 * (a * b))
    with (P * m * (360 * ((a + 1) * b))) by (field; lra).
  setoid_replace (P * (m * (b + 1)) / b * 480 * (a * b))
    with (P * m * (480 * ((b + 1) * a))) by (field; lra).
  assert (HPm : 0 < P * m) by (apply Qmult_lt_0_compat; assumption).
  apply Qmult_lt_l; [exact HPm |]. nra.
Qed.

Lemma total_360_lt_480 (P1 P2 r1 r2 : Q) :
  P1 == P2 -> r1 == r2 -> 0 < P2 -> 0 < r2 ->
  exists p360 p480,
    calculate_pmt P1 r1 360 = Ok p360 /\
    calculate_pmt P2 r2 480 = Ok p480 /\
    p360 * 360 < p480 * 480.
Proof.
  intros HP Hr HP2 Hr2.
  assert (Hr1 : 0 < r1) by (rewrite Hr; exact Hr2).
  pose proof (annuity_360_lt_480 P2 (r2 / 100 / 12) HP2
                (monthly_rate_pos r2 Hr2)) as Hlt.
  eexists _, _.
  split; [apply calculate_pmt_pos; [exact Hr1 | lia] |].
  split; [apply calculate_pmt_pos; [exact Hr2 | lia] |].
  rewrite HP, Hr. exact Hlt.
Qed.

(** C3 as stated fails: the lifetime rate equals the original rate although
    a scanned candidate, the original rate itself, qualifies. *)
Lemma tipping_rate_fallback_counterexample :
  exists rep,
    run_analysis long_term_args = Ok rep /\
    tipping_rate_lifetime rep == rate long_term_args /\
    ~ Forall (fun r => lifetime_cheaper (locals rep) r = false)
        (search_rates (locals rep)).
Proof.
  destruct (total_360_lt_480 (1000 + 1000 * 0) 1000
              (3 + inject_Z (Z.of_nat 0) * -0.001) 3)
    as (p360 & pmt & H360 & Hp & Hlt);
    [reflexivity | reflexivity | lra | lra |].
  pose proof (original_loan_eq long_term_args 1 "Dec 2025" pmt
                ltac:(reflexivity) Hp) as HL.
  cbv zeta in HL. cbn [amount rate term paid costs_pct long_term_args] in HL.
  set (L := mk_Locals _ _ _ _ _ _ _ _ _ _ _) in HL.
  destruct (run_analysis_eq long_term_args L HL) as (table & _ & Hr).
  destruct (search_rates_head L ltac:(cbn [L original_rate]; lra))
    as [rest Hhead].
  assert (Hq : lifetime_cheaper L (original_rate L + inject_Z (Z.of_nat 0) * -0.001)
               = true).
  { assert (Hbal : balance_after 1000 3 pmt 0 = 1000) by reflexivity.
    unfold lifetime_cheaper. subst L.
    cbn [cost_refi_loan_amt pmt_orig original_term_months payments_made
         original_rate].
    rewrite Hbal, H360. apply Qlt_bool_iff. exact Hlt. }
  assert (Ht : first_or_original L (lifetime_cheaper L)
               = original_rate L + inject_Z (Z.of_nat 0) * -0.001).
  { unfold first_or_original. rewrite Hhead. cbn [find]. now rewrite Hq. }
  eexists. split; [exact Hr | split].
  - cbn [tipping_rate_lifetime]. rewrite Ht.
    cbn [rate long_term_args L original_rate]. reflexivity.
  - cbn [locals]. rewrite Hhead. intros Hall.
    apply Forall_inv in Hall. rewrite Hq in Hall. discriminate.
Qed.

(** ** The comparison table *)

Lemma rint_close (x : Q) :
  inject_Z (rint x) - (1 # 2) <= x /\ x <= inject_Z (rint x) + (1 # 2).
Proof.
  unfold rint.
  pose proof (Qfloor_le x) as Hlo. pose proof (Qlt_floor x) as Hhi.
  rewrite inject_Z_plus in Hhi. change (inject_Z 1) with 1 in Hhi.
  destruct (Qcompare_spec (x - inject_Z (Qfloor x)) (1 # 2)) as [E | E | E].
  - destruct (Z.even (Qfloor x)).
    + split; lra.
    + rewrite inject_Z_plus. change (inject_Z 1) with 1. split; lra.
  - split; lra.
  - rewrite inject_Z_plus. change (inject_Z 1) with 1. split; lra.
Qed.

Lemma round3_thousandths (x : Q) : round3 x == rint (x * 1000) # 1000.
Proof. unfold round3. apply Qred_correct. Qed.

Lemma round3_close (x : Q) :
  round3 x - (1 # 2000) <= x /\ x <= round3 x + (1 # 2000).
Proof.
  rewrite round3_thousandths.
  destruct (rint_close (x * 1000)) as [Hlo Hhi].
  assert (E : rint (x * 1000) # 1000
              == inject_Z (rint (x * 1000)) * (1 # 1000)).
  { unfold Qeq, inject_Z, Qmult. simpl. lia. }
  rewrite E. split; lra.
Qed.

Lemma round3_canonical (x y : Q) : round3 x == round3 y -> round3 x = round3 y.
Proof.
  unfold round3. intros H. apply Qred_complete. now apply Qeq_Qred_iff.
Qed.

Lemma existsb_Qeq (x : Q) (l : list Q) :
  existsb (Qeq_bool x) l = true <-> exists y, In y l /\ x == y.
Proof.
  rewrite existsb_exists. split; intros (y & Hy & E); exists y;
    (split; [exact Hy | now apply Qeq_bool_iff]).
Qed.

Lemma list_set_In (x : Q) (l : list Q) : In x (list_set l) -> In x l.
Proof.
  induction l as [| a l IH]; cbn [list_set]; [trivial |].
  destruct (existsb (Qeq_bool a) l).
  - intros H. right. now apply IH.
  - intros [<- | H]; [now left | right; now apply IH].
Qed.

Lemma list_set_complete (x : Q) (l : list Q) :
  In x l -> exists y, In y (list_set l) /\ y == x.
Proof.
  revert x. induction l as [| a l IH]; intros x; cbn [list_set]; [intros [] |].
  intros [-> | H].
  - destruct (existsb (Qeq_bool x) l) eqn:E.
    + apply existsb_Qeq in E. destruct E as (y & Hy & Hxy).
      destruct (IH y Hy) as (z & Hz & Hzy). exists z.
      split; [exact Hz | now rewrite Hzy, Hxy].
    + exists x. split; [now left | reflexivity].
  - destruct (IH x H) as (y & Hy & Hyx).
    destruct (existsb (Qeq_bool a) l); exists y;
      (split; [| exact Hyx]); [exact Hy | now right].
Qed.

Lemma list_set_length (l : list Q) : (length (list_set l) <= length l)%nat.
Proof.
  induction l as [| a l IH]; cbn [list_set]; [lia |].
  destruct (existsb (Qeq_bool a) l); simpl; lia.
Qed.

(** [list_set] leaves no two elements with the same value. *)
Lemma list_set_distinct (l : list Q) :
  ForallOrdPairs (fun x y => ~ x == y) (list_set l).
Proof.
  induction l as [| a l IH]; cbn [list_set]; [constructor |].
  destruct (existsb (Qeq_bool a) l) eqn:E; [exact IH |].
  constructor; [| exact IH].
  apply Forall_forall. intros y Hy Hay.
  assert (Ht : existsb (Qeq_bool a) l = true).
  { apply existsb_Qeq. exists y. split; [now apply list_set_In | exact Hay]. }
  congruence.
Qed.

Lemma insert_by_In (le : Q -> Q -> bool) (a x : Q) (l : list Q) :
  In x (insert_by le a l) <-> x = a \/ In x l.
Proof.
  induction l as [| b l IH]; cbn [insert_by].
  - simpl. intuition.
  - destruct (le a b); simpl in *; rewrite ?IH; intuition.
Qed.

Lemma insert_by_length (le : Q -> Q -> bool) (a : Q) (l : list Q) :
  length (insert_by le a l) = S (length l).
Proof.
  induction l as [| b l IH]; cbn [insert_by]; [reflexivity |].
  destruct (le a b); simpl; congruence.
Qed.

Lemma sorted_by_In (le : Q -> Q -> bool) (x : Q) (l : list Q) :
  In x (sorted_by le l) <-> In x l.
Proof.
  unfold sorted_by. induction l as [| a l IH]; cbn [fold_right]; [reflexivity |].
  rewrite insert_by_In, IH. simpl. intuition.
Qed.

Lemma sorted_by_length (le : Q -> Q -> bool) (l : list Q) :
  length (sorted_by le l) = length l.
Proof.
  unfold sorted_by. induction l as [| a l IH]; cbn [fold_right]; [reflexivity |].
  rewrite insert_by_length, IH. reflexivity.
Qed.

Lemma insert_descending (a : Q) (l : list Q) :
  StronglySorted (fun x y => y < x) l ->
  Forall (fun y => ~ a == y) l ->
  StronglySorted (fun x y => y < x) (insert_by (fun a b => Qle_bool b a) a l).
Proof.
  induction l as [| b l IH]; cbn [insert_by]; intros Hs Hd.
  - repeat constructor.
  - inversion Hs as [| ? ? Hs' Hb]; subst.
    inversion Hd as [| ? ? Hab Hd']; subst.
    destruct (Qle_bool b a) eqn:E.
    + apply Qle_bool_iff in E.
      assert (Hlt : b < a).
      { destruct (Qle_lt_or_eq _ _ E) as [? | Heq]; [assumption |].
        exfalso. apply Hab. now symmetry. }
      constructor; [exact Hs |].
      constructor; [exact Hlt |].
      eapply Forall_impl; [| exact Hb]. cbv beta. intros y Hy. lra.
    + apply Qle_bool_false in E.
      constructor; [now apply IH |].
      apply Forall_forall. intros y Hy. apply insert_by_In in Hy.
      destruct Hy as [-> | Hy]; [exact E |].
      rewrite Forall_forall in Hb. now apply Hb.
Qed.

Lemma sorted_reverse_descending (l : list Q) :
  ForallOrdPairs (fun x y => ~ x == y) l ->
  StronglySorted (fun x y => y < x) (sorted_reverse l).
Proof.
  unfold sorted_reverse, sorted_by.
  induction 1 as [| a l Ha Hl IH]; cbn [fold_right]; [constructor |].
  apply insert_descending; [exact IH |].
  apply Forall_forall. intros y Hy.
  rewrite Forall_forall in Ha. apply Ha.
  exact (proj1 (sorted_by_In (fun a b => Qle_bool b a) y l) Hy).
Qed.

Lemma descending_NoDup (l : list Q) :
  StronglySorted (fun x y => y < x) l -> NoDup l.
Proof.
  induction 1 as [| a l Hs IH Ha]; constructor; [| exact IH].
  intros Hin. rewrite Forall_forall in Ha. specialize (Ha a Hin). lra.
Qed.

(** C5.  The table rates are exactly the five candidates
    [ts + 0.075], [ts], [ts - 0.25], [tl], [tl - 0.25], each rounded to a
    multiple of 0.001 within 0.0005, that are strictly below the original
    rate; they are listed strictly descending, without duplicates, at most
    five of them, and the table has one row per rate in that order. *)
Theorem table_rates_spec (L : Locals) (ts tl : Q) :
  let rows := table_rates L ts tl in
  table_candidates ts tl
  = [round3 (ts + 0.075); round3 ts; round3 (ts - 0.25);
     round3 tl; round3 (tl - 0.25)] /\
  (forall x, round3 x == rint (x * 1000) # 1000
             /\ round3 x - (1 # 2000) <= x <= round3 x + (1 # 2000)) /\
  (forall r, In r rows
             <-> In r (table_candidates ts tl) /\ r < original_rate L) /\
  StronglySorted (fun x y => y < x) rows /\
  NoDup rows /\
  (length rows <= 5)%nat /\
  Forall (fun r => r < original_rate L) rows /\
  exists table, build_table L rows = Ok table /\ map row_rate table = rows.
Proof.
  intros rows.
  assert (Hcanon : forall x y,
            In x (table_candidates ts tl) -> In y (table_candidates ts tl) ->
            x == y -> x = y).
  { intros x y Hx Hy. unfold table_candidates in Hx, Hy. simpl in Hx, Hy.
    destruct Hx as [<- | [<- | [<- | [<- | [<- | []]]]]];
    destruct Hy as [<- | [<- | [<- | [<- | [<- | []]]]]];
    apply round3_canonical. }
  set (kept := filter (fun r => Qlt_bool r (original_rate L))
                 (sorted (list_set (table_candidates ts tl)))).
  assert (Hkept : forall r, In r kept
            <-> In r (table_candidates ts tl) /\ r < original_rate L).
  { intros r. subst kept. rewrite filter_In, Qlt_bool_iff.
    unfold sorted. rewrite sorted_by_In. split.
    - intros [Hin Hlt]. split; [now apply list_set_In | exact Hlt].
    - intros [Hin Hlt]. split; [| exact Hlt].
      destruct (list_set_complete r _ Hin) as (y & Hy & Hyr).
      rewrite <- (Hcanon y r); [exact Hy | now apply list_set_In | exact Hin
                               | exact Hyr]. }
  assert (Hrows : forall r, In r rows
            <-> In r (table_candidates ts tl) /\ r < original_rate L).
  { intros r. subst rows. unfold table_rates. fold kept.
    unfold sorted_reverse. rewrite sorted_by_In, <- Hkept. split.
    - apply list_set_In.
    - intros Hin. destruct (list_set_complete r _ Hin) as (y & Hy & Hyr).
      rewrite <- (Hcanon y r); [exact Hy | | | exact Hyr].
      + apply list_set_In in Hy. now apply Hkept in Hy.
      + now apply Hkept in Hin. }
  assert (Hsorted : StronglySorted (fun x y => y < x) rows).
  { subst rows. unfold table_rates.
    apply sorted_reverse_descending, list_set_distinct. }
  split; [reflexivity |].
  split; [intros x; split; [apply round3_thousandths | apply round3_close] |].
  split; [exact Hrows |].
  split; [exact Hsorted |].
  split; [now apply descending_NoDup |].
  split; [| split].
  - subst rows. unfold table_rates, sorted_reverse, sorted.
    rewrite sorted_by_length.
    etransitivity; [apply list_set_length |].
    etransitivity; [apply filter_length_le |].
    rewrite sorted_by_length.
    etransitivity; [apply list_set_length |]. simpl. lia.
  - apply Forall_forall. intros r Hr. now apply Hrows in Hr.
  - apply build_table_returns.
Qed.

(** ** The payment in binary64 *)

Section PaymentProofs.

Variable py_pow : float -> float -> result float.

Lemma calculate_pmt_b64_nonpos (principal annual_rate : float) (months : Z) :
  (annual_rate <=? 0)%float = true ->
  calculate_pmt_b64 py_pow principal annual_rate months
  = (m <- float_of_int months ;; float_truediv principal m).
Proof. intros Hr. unfold calculate_pmt_b64. now rewrite Hr. Qed.

Lemma calculate_pmt_b64_absorbed (principal annual_rate : float) (months : Z) :
  (annual_rate <=? 0)%float = false ->
  (1 + annual_rate / 100 / 12 =? 1)%float = true ->
  calculate_pmt_b64 py_pow principal annual_rate months
  = match float_of_int months with
    | Ok _ => Raise ZeroDivisionError
    | Raise e => Raise e
    end.
Proof.
  intros Hr H1. unfold calculate_pmt_b64, float_pow. rewrite Hr, H1.
  destruct (float_of_int months) as [iw | e]; cbn [bind]; [| reflexivity].
  destruct (iw =? 0)%float; reflexivity.
Qed.

End PaymentProofs.

(** C7, the code at a failing input.  The annual rate 1e-20 is positive, and
    [calculate_pmt] raises [ZeroDivisionError] at it for every principal and
    every term: [1 + r] rounds to [1.0], so the divisor
    [(1 + r) ** months - 1] is [0.0]. *)
Theorem calculate_pmt_b64_tiny_rate_raises :
  (0 <? 1e-20)%float = true /\
  (forall py_pow,
     calculate_pmt_b64 py_pow 1000 1e-20 12 = Raise ZeroDivisionError) /\
  (forall py_pow (principal : float) (months : Z),
     calculate_pmt_b64 py_pow principal 1e-20 months
     = match float_of_int months with
       | Ok _ => Raise ZeroDivisionError
       | Raise e => Raise e
       end).
Proof.
  split; [reflexivity |]. split.
  - intros py_pow.
    now rewrite calculate_pmt_b64_absorbed by reflexivity.
  - intros py_pow principal months.
    apply calculate_pmt_b64_absorbed; reflexivity.
Qed.

(** C8, the code at a failing input.  For a principal of 1200 over 12 months
    the payment at rate 0 is 100.0; at the higher rate 1e-20 there is no
    payment to compare: [calculate_pmt] raises [ZeroDivisionError]. *)
Theorem calculate_pmt_b64_not_increasing :
  (0 <? 1e-20)%float = true /\
  forall py_pow,
    calculate_pmt_b64 py_pow 1200 0 12 = Ok 100%float /\
    calculate_pmt_b64 py_pow 1200 1e-20 12 = Raise ZeroDivisionError.
Proof.
  split; [reflexivity |]. intros py_pow. split.
  - now rewrite calculate_pmt_b64_nonpos by reflexivity.
  - now rewrite calculate_pmt_b64_absorbed by reflexivity.
Qed.
